(** * fruitstand: the asynchronous job-execution core of [api/index.js]

    A shallow embedding of the process runner [exec], of the job registry
    ([app.locals.jobs], [launchJob]) and of the poll handler
    [app.get('/api/job/:id')], together with the small part of the host
    platform they rely on: JavaScript numbers and promises, [setTimeout],
    [child_process.spawn] and [process.kill]. *)

From Stdlib Require Import ZArith String List Lia.
From stdpp Require Import base option list gmap strings pretty.

Local Open Scope Z_scope.

(** ** JavaScript values used by the program *)

Module Js.

(** The numbers the program handles are results of [parseInt] and process
    ids: integers, or [NaN] when [parseInt] finds no digits.  Integers are
    kept unbounded; the program only multiplies them by 1000 and prints
    them. *)
Inductive number :=
| Int (z : Z)
| NaN.

(** [ToBoolean] on a number: [0] and [NaN] are falsy. *)
Definition to_boolean (n : number) : bool :=
  match n with
  | Int z => negb (z =? 0)
  | NaN => false
  end.

(** [a || b] on numbers. *)
Definition logical_or (a b : number) : number :=
  if to_boolean a then a else b.

(** [a * b]. *)
Definition mul (a b : number) : number :=
  match a, b with
  | Int x, Int y => Int (x * y)
  | _, _ => NaN
  end.

(** [`${n}`] for a number. *)
Definition to_string (n : number) : string :=
  match n with
  | Int z => pretty z
  | NaN => "NaN"
  end.

(** [Array.prototype.join] on an array of strings. *)
Fixpoint join (sep : string) (l : list string) : string :=
  match l with
  | [] => ""
  | [x] => x
  | x :: rest => x +:+ sep +:+ join sep rest
  end.

(** Exceptions that occur in the program. *)
Inductive Exn :=
| Error (message : string)          (* [new Error(message)] *)
| ReferenceError (message : string) (* an unbound identifier was read *)
| SystemError (code : string).      (* a failed system call *)

Definition message (e : Exn) : string :=
  match e with
  | Error m => m
  | ReferenceError m => m
  | SystemError c => "kill " +:+ c   (* as in [Error: kill ESRCH] *)
  end.

(** The state of a promise of a string. *)
Inductive Settlement :=
| Pending
| Fulfilled (value : string)
| Rejected (reason : Exn).

#[global] Instance Exn_eq_dec : EqDecision Exn.
Proof. solve_decision. Defined.

#[global] Instance Settlement_eq_dec : EqDecision Settlement.
Proof. solve_decision. Defined.

Definition is_settled (p : Settlement) : bool :=
  match p with
  | Pending => false
  | _ => true
  end.

(** The [resolve] and [reject] functions handed to a promise executor act
    on a pending promise only; later calls are ignored. *)
Definition resolve (value : string) (p : Settlement) : Settlement :=
  match p with
  | Pending => Fulfilled value
  | _ => p
  end.

Definition reject (reason : Exn) (p : Settlement) : Settlement :=
  match p with
  | Pending => Rejected reason
  | _ => p
  end.

(** What an identifier in scope is bound to, as far as a template literal
    can tell. *)
Inductive Binding :=
| BString (s : string)
| BNumber (n : number)
| BStrings (l : list string)
| BObject.

Definition render (b : Binding) : string :=
  match b with
  | BString s => s
  | BNumber n => to_string n
  | BStrings l => join "," l
  | BObject => "[object Object]"
  end.

Definition Scope := list (string * Binding).

Fixpoint lookup_binding (x : string) (sc : Scope) : option Binding :=
  match sc with
  | [] => None
  | (y, b) :: rest => if String.eqb x y then Some b else lookup_binding x rest
  end.

(** Reading an identifier: a [ReferenceError] when nothing binds it. *)
Definition read_identifier (x : string) (sc : Scope) : Exn + Binding :=
  match lookup_binding x sc with
  | Some b => inr b
  | None => inl (ReferenceError (x +:+ " is not defined"))
  end.

End Js.

(** ** The host platform: processes, process groups and signals

    What Node.js documents for [child_process.spawn] and [process.kill] on
    a POSIX system, as far as [exec] depends on it. *)

Module Platform.

Inductive Signal := SIGTERM | SIGKILL.

(** The live processes, each with the process group it belongs to, and the
    calls to [process.kill] issued so far.  [self] is the server. *)
Record Os := mkOs {
  self : Z;
  procs : gmap Z Z;
  kills : list (Z * Signal)
}.

Definition pgid (os : Os) (pid : Z) : option Z := procs os !! pid.

(** The options of [child_process.spawn] that matter here. *)
Record SpawnOptions := mkSpawnOptions { detached : bool }.

(** [spawn(command, args)] without a third argument uses the defaults. *)
Definition default_options : SpawnOptions := {| detached := false |}.

(** [child_process.spawn]: [child] is the process id the system hands
    out.  A detached child leads a new process group; any other child
    stays in the group of its parent. *)
Definition spawn (child : Z) (opts : SpawnOptions) (os : Os) : Os :=
  let group :=
    if detached opts then child else default (self os) (pgid os (self os)) in
  {| self := self os;
     procs := <[child := group]> (procs os);
     kills := kills os |}.

Definition group_members (g : Z) (ps : gmap Z Z) : gmap Z Z :=
  filter (λ kv, kv.2 = g) ps.

(** What a delivered signal does to its recipients: [SIGKILL] cannot be
    caught and ends them. *)
Definition deliver (sig : Signal) (victims ps : gmap Z Z) : gmap Z Z :=
  match sig with
  | SIGKILL => ps ∖ victims
  | SIGTERM => ps
  end.

(** [process.kill(target, sig)].  A negative [target] addresses the
    process group [- target], any other the single process [target]; the
    call throws when there is nothing to signal.  [exec] only passes the
    negated id of a child, so the special targets 0 and -1 play no part. *)
Definition process_kill (target : Z) (sig : Signal) (os : Os)
  : Os * option Js.Exn :=
  let victims :=
    if decide (target < 0)
    then group_members (- target) (procs os)
    else filter (λ kv, kv.1 = target) (procs os) in
  let os' := {| self := self os;
                procs := if decide (victims = ∅) then procs os
                         else deliver sig victims (procs os);
                kills := kills os ++ [(target, sig)] |} in
  (os', if decide (victims = ∅) then Some (Js.SystemError "ESRCH") else None).

(** The system reaps a process that has ended. *)
Definition reap (pid : Z) (os : Os) : Os :=
  {| self := self os; procs := delete pid (procs os); kills := kills os |}.

End Platform.

(** ** The process runner: [exec] *)

Module Runner.
Import Js Platform.

(** The timer created by [setTimeout] and held in the inner [timeout]. *)
Inductive Timer :=
| Armed (delay : number)   (* waiting; [delay] is the argument in ms *)
| Cleared                  (* cancelled by [clearTimeout] *)
| Fired.                   (* the callback has run *)

Definition clearTimeout (t : Timer) : Timer :=
  match t with
  | Armed _ => Cleared
  | _ => t
  end.

Inductive Log :=
| Out (text : string)    (* [console.log] *)
| Err (text : string).   (* [console.error] *)

(** The argument of the ['close'] event: the exit code, or [null] when a
    signal ended the child. *)
Inductive ExitCode :=
| Code (n : Z)
| Null.

Definition code_to_string (c : ExitCode) : string :=
  match c with
  | Code n => to_string (Int n)
  | Null => "null"
  end.

(** [code === 0] *)
Definition is_zero (c : ExitCode) : bool :=
  match c with
  | Code n => n =? 0
  | Null => false
  end.

(** Everything one call of [exec] owns or touches. *)
Record Exec := mkExec {
  command : string;
  args : list string;
  timeoutSeconds : number;
  pid : Z;                     (* [proc.pid] *)
  promise : Settlement;        (* the promise [exec] returns *)
  timer : Timer;
  buffer : list string;
  console : list Log;
  os : Os;
  uncaught : option Exn        (* an exception that left a callback *)
}.

Definition set_promise (p : Settlement) (s : Exec) : Exec :=
  mkExec (command s) (args s) (timeoutSeconds s) (pid s) p (timer s)
         (buffer s) (console s) (os s) (uncaught s).

Definition set_timer (t : Timer) (s : Exec) : Exec :=
  mkExec (command s) (args s) (timeoutSeconds s) (pid s) (promise s) t
         (buffer s) (console s) (os s) (uncaught s).

Definition set_buffer (b : list string) (s : Exec) : Exec :=
  mkExec (command s) (args s) (timeoutSeconds s) (pid s) (promise s) (timer s)
         b (console s) (os s) (uncaught s).

Definition log (l : Log) (s : Exec) : Exec :=
  mkExec (command s) (args s) (timeoutSeconds s) (pid s) (promise s) (timer s)
         (buffer s) (console s ++ [l]) (os s) (uncaught s).

Definition set_os (o : Os) (s : Exec) : Exec :=
  mkExec (command s) (args s) (timeoutSeconds s) (pid s) (promise s) (timer s)
         (buffer s) (console s) o (uncaught s).

Definition set_uncaught (e : option Exn) (s : Exec) : Exec :=
  mkExec (command s) (args s) (timeoutSeconds s) (pid s) (promise s) (timer s)
         (buffer s) (console s) (os s) e.

(** [{ timeout = 60_000 } = {}]: the default applies when the option is
    absent ([None]). *)
Definition timeout_option (timeout : option number) : number :=
  default (Int 60000) timeout.

(** [const timeoutSeconds = timeout || 60;] *)
Definition timeout_seconds (timeout : option number) : number :=
  logical_or (timeout_option timeout) (Int 60).

(** [timeoutSeconds * 1000], the delay handed to [setTimeout]. *)
Definition timer_delay (timeout : option number) : number :=
  mul (timeout_seconds timeout) (Int 1000).

Definition timeout_message (seconds : number) : string :=
  "Process timed out after " +:+ to_string seconds +:+ " seconds.".

Definition exit_message (code : ExitCode) : string :=
  "Process exited with non-zero code " +:+ code_to_string code +:+ ".".

(** The synchronous part of [exec]: the child is spawned with
    [spawn(command, args)], the timer is armed, the buffer is empty and
    the promise is pending.  [child] is the process id of the new
    process. *)
Definition exec (cmd : string) (arguments : list string)
           (timeout : option number) (child : Z) (o : Os) : Exec :=
  {| command := cmd;
     args := arguments;
     timeoutSeconds := timeout_seconds timeout;
     pid := child;
     promise := Pending;
     timer := Armed (timer_delay timeout);
     buffer := [];
     console := [];
     os := spawn child default_options o;
     uncaught := None |}.

(** The identifiers bound where the timer callback runs, innermost
    first: the [catch] parameter, the promise executor, [exec], the
    module and the globals the file uses. *)
Definition scope_of_timer_callback (s : Exec) : Scope :=
  [ ("exc", BObject);
    ("resolve", BObject); ("reject", BObject); ("proc", BObject);
    ("timeout", BObject); ("buffer", BStrings (buffer s));
    ("command", BString (command s)); ("args", BStrings (args s));
    ("timeoutSeconds", BNumber (timeoutSeconds s));
    ("express", BObject); ("fileUpload", BObject); ("serveIndex", BObject);
    ("uuidv4", BObject); ("spawn", BObject); ("app", BObject);
    ("port", BObject); ("exec", BObject); ("launchJob", BObject);
    ("process", BObject); ("console", BObject); ("setTimeout", BObject);
    ("clearTimeout", BObject); ("parseInt", BObject); ("Error", BObject);
    ("Promise", BObject); ("Map", BObject); ("URL", BObject);
    ("encodeURIComponent", BObject) ].

Definition newline : string := String (Ascii.ascii_of_nat 10) EmptyString.

(** The template literal of the [catch] block,
    [`Failed to kill process ${-proc.pid} for command:\n${cmd}`]. *)
Definition kill_failure_text (s : Exec) : Exn + string :=
  match read_identifier "cmd" (scope_of_timer_callback s) with
  | inl e => inl e
  | inr b => inr ("Failed to kill process " +:+ to_string (Int (- pid s))
                   +:+ " for command:" +:+ newline +:+ render b)
  end.

(** The timer callback:
    [try { process.kill(-proc.pid, 'SIGKILL') }
     catch (exc) { console.error(...) }
     finally { reject(new Error(...)) }].
    An exception raised inside [catch] leaves the callback once [finally]
    has run. *)
Definition on_timeout (s : Exec) : Exec :=
  let '(o, thrown) := process_kill (- pid s) SIGKILL (os s) in
  let s1 := set_os o s in
  let s2 :=
    match thrown with
    | None => s1
    | Some _ =>
        match kill_failure_text s1 with
        | inr text => log (Err text) s1
        | inl e => set_uncaught (Some e) s1
        end
    end in
  set_promise
    (reject (Error (timeout_message (timeoutSeconds s))) (promise s2)) s2.

(** [proc.stdout.on('data', ...)] *)
Definition on_data (output : string) (s : Exec) : Exec :=
  log (Out output) (set_buffer (buffer s ++ [output]) s).

(** [proc.on('error', err => console.error(err))] *)
Definition on_error (err : string) (s : Exec) : Exec :=
  log (Err err) s.

(** [proc.on('close', ...)] *)
Definition on_close (code : ExitCode) (s : Exec) : Exec :=
  let s1 := set_timer (clearTimeout (timer s)) s in
  if is_zero code
  then set_promise (resolve (join "" (buffer s1)) (promise s1)) s1
  else set_promise (reject (Error (exit_message code)) (promise s1)) s1.

(** What the event loop can deliver to one [exec]. *)
Inductive Event :=
| Data (chunk : string)
| ProcError (err : string)
| Close (code : ExitCode)
| TimerExpired.

(** One turn of the event loop.  An armed timer is the only one that can
    expire; a child that closed has ended and is reaped; after an
    uncaught exception the server is gone and nothing runs any more. *)
Definition step (s : Exec) (e : Event) : Exec :=
  match uncaught s with
  | Some _ => s
  | None =>
      match e with
      | Data chunk => on_data chunk s
      | ProcError err => on_error err s
      | Close code => on_close code (set_os (reap (pid s) (os s)) s)
      | TimerExpired =>
          match timer s with
          | Armed _ => on_timeout (set_timer Fired s)
          | _ => s
          end
      end
  end.

Definition run (s : Exec) (events : list Event) : Exec :=
  fold_left step events s.

(** The number of turns of a run in which the promise changes state. *)
Fixpoint settlements (s : Exec) (events : list Event) : nat :=
  match events with
  | [] => 0%nat
  | e :: rest =>
      ((if bool_decide (promise (step s e) = promise s) then 0 else 1)
       + settlements (step s e) rest)%nat
  end.

(** Events that neither end the child nor expire the timer. *)
Definition is_quiet (e : Event) : bool :=
  match e with
  | Data _ | ProcError _ => true
  | Close _ | TimerExpired => false
  end.

(** The chunks of standard output among the events, in arrival order. *)
Fixpoint chunks (events : list Event) : list string :=
  match events with
  | [] => []
  | Data c :: rest => c :: chunks rest
  | _ :: rest => chunks rest
  end.

End Runner.

(** ** The job registry and the poll handler *)

Module Registry.
Import Js.

(** A promise object, as stored in the registry: its identity. *)
Definition Ref := nat.

(** [launchJob(promise)]: [jobId] is what [uuidv4()] returns in this
    call; [app.locals.jobs.set(jobId, promise)] replaces an entry that
    already has that key. *)
Definition launchJob (jobId : string) (promise : Ref) (jobs : gmap string Ref)
  : string * gmap string Ref :=
  (jobId, <[jobId := promise]> jobs).

(** Several calls of [launchJob] in a row, each with the identifier drawn
    for it; the identifiers are returned in the order of the calls. *)
Fixpoint launchJobs (calls : list (string * Ref)) (jobs : gmap string Ref)
  : list string * gmap string Ref :=
  match calls with
  | [] => ([], jobs)
  | (jobId, promise) :: rest =>
      let '(id, jobs1) := launchJob jobId promise jobs in
      let '(ids, jobs2) := launchJobs rest jobs1 in
      (id :: ids, jobs2)
  end.

(** [app.locals.jobs.get(jobId)]: [None] is [undefined]. *)
Definition lookup (jobs : gmap string Ref) (jobId : string) : option Ref :=
  jobs !! jobId.

(** The outcome of [await x] for what [lookup] returned. *)
Inductive Awaited :=
| Waiting                      (* the promise is pending *)
| Value (v : option string)    (* a string, or [undefined] *)
| Thrown (exc : Exn).

(** [await promise]: a value that is not a promise is its own result. *)
Definition await (state_of : Ref → Settlement) (x : option Ref) : Awaited :=
  match x with
  | None => Value None
  | Some r =>
      match state_of r with
      | Pending => Waiting
      | Fulfilled v => Value (Some v)
      | Rejected exc => Thrown exc
      end
  end.

(** [if (redirect)]: [undefined] and the empty string are falsy. *)
Definition truthy (v : option string) : bool :=
  match v with
  | Some s => negb (String.eqb s "")
  | None => false
  end.

(** The JSON object [{ id, status, error }]. *)
Record Body := mkBody {
  id : string;
  status : string;
  error : option string
}.

Inductive Response :=
| Redirect (location : string)          (* [res.redirect(location)] *)
| Send (http_status : Z) (body : Body). (* [res.status(n).send(body)] *)

(** [app.get('/api/job/:id', ...)]: [None] while the handler is still
    waiting for the promise. *)
Definition job_get (jobs : gmap string Ref) (state_of : Ref → Settlement)
           (jobId : string) : option Response :=
  match await state_of (lookup jobs jobId) with
  | Waiting => None
  | Value redirect =>
      if truthy redirect
      then Some (Redirect (default "" redirect))
      else Some (Send 200 {| id := jobId; status := "finished"; error := None |})
  | Thrown exc =>
      Some (Send 500 {| id := jobId; status := "error";
                        error := Some (message exc) |})
  end.

Definition is_error (r : Response) : bool :=
  match r with
  | Send code body => (400 <=? code) || String.eqb (status body) "error"
  | Redirect _ => false
  end.

End Registry.

(** ** Concrete runs used as examples *)

Module Scenario.
Import Js Platform Runner Registry.

(** The server is process 100 and leads its own group. *)
Definition server : Os :=
  {| self := 100; procs := {[ 100 := 100 ]}; kills := [] |}.

(** [exec('sleep', ['100'], { timeout: 1 })], the child being process 101. *)
Definition sleeper : Exec := exec "sleep" ["100"] (Some (Int 1)) 101 server.

(** [exec('echo', [], {})] *)
Definition echo : Exec := exec "echo" [] None 101 server.

(** A registry with the single job ["job-a"], whose promise 0 was
    rejected by a timeout. *)
Definition one_job : gmap string Ref := (launchJob "job-a" 0%nat ∅).2.

Definition timed_out (r : Ref) : Settlement :=
  Rejected (Error "Process timed out after 1 seconds.").



End Scenario.

(** ** What a run amounts to, read off the events *)

Module Trace.
Import Js Runner.

(** The settlement decided by the first close or timer expiry among the
    events; [received] holds the chunks that arrived before. *)
Fixpoint outcome (seconds : number) (received : list string)
         (events : list Event) : Settlement :=
  match events with
  | [] => Pending
  | Data chunk :: rest => outcome seconds (received ++ [chunk]) rest
  | ProcError _ :: rest => outcome seconds received rest
  | Close code :: _ =>
      if is_zero code
      then Fulfilled (foldr String.append "" received)
      else Rejected (Error (exit_message code))
  | TimerExpired :: _ => Rejected (Error (timeout_message seconds))
  end.

(** The console lines that output and error events call for. *)
Fixpoint mirror (events : list Event) : list Log :=
  match events with
  | [] => []
  | Data chunk :: rest => Out chunk :: mirror rest
  | ProcError err :: rest => Err err :: mirror rest
  | _ :: rest => mirror rest
  end.

(** The lines written with [console.log]. *)
Fixpoint outs (lines : list Log) : list string :=
  match lines with
  | [] => []
  | Out text :: rest => text :: outs rest
  | Err _ :: rest => outs rest
  end.

(** Whether the timer expires before the child closes. *)
Fixpoint expired_first (events : list Event) : bool :=
  match events with
  | [] => false
  | Data _ :: rest | ProcError _ :: rest => expired_first rest
  | Close _ :: _ => false
  | TimerExpired :: _ => true
  end.


(** The timeouts for which the delay handed to [setTimeout] is one it
    honours (from 1 to 2147483647 ms): the option left out, [NaN], or an
    integer from 0 to 2147483 seconds.  In this range the product and the
    decimal rendering of the model are those of JavaScript numbers. *)
Definition in_timer_range (timeout : option number) : bool :=
  match timeout with
  | None => true
  | Some NaN => true
  | Some (Int z) => (0 <=? z) && (z <=? 2147483)
  end.

(** The seconds [exec] waits for a given option. *)
Definition effective_seconds (timeout : option number) : Z :=
  match timeout with
  | None => 60000
  | Some (Int z) => if z =? 0 then 60 else z
  | Some NaN => 60
  end.

(** What holds of every state a run of an [exec] can reach. *)
Definition reachable (seconds : number) (s : Exec) : Prop :=
  timeoutSeconds s = seconds
  ∧ (∀ delay, timer s = Armed delay → promise s = Pending)
  ∧ (∀ exc, uncaught s = Some exc →
       exc = ReferenceError "cmd is not defined"
       ∧ promise s = Rejected (Error (timeout_message seconds))
       ∧ timer s = Fired).

End Trace.

(** ** [encodeURIComponent]

    A string stands for the UTF-8 bytes of a well-formed JavaScript string.
    [encodeURIComponent] keeps the unreserved ASCII characters and writes
    every other byte as a percent sign and two upper-case hex digits. *)

Module Uri.
Import Stdlib.Strings.Ascii.

Definition between (lo hi : N) (c : Ascii.ascii) : bool :=
  ((lo <=? Ascii.N_of_ascii c) && (Ascii.N_of_ascii c <=? hi))%N.

(** Letters, digits and [- _ . ! ~ * ' ( )]. *)
Definition is_unreserved (c : Ascii.ascii) : bool :=
  between 65 90 c || between 97 122 c || between 48 57 c
  || bool_decide (c ∈ [ "-"; "_"; "."; "!"; "~"; "*"; "'"; "("; ")" ]%char).

Definition hex_digit (n : N) : Ascii.ascii :=
  if (n <? 10)%N then Ascii.ascii_of_N (48 + n) else Ascii.ascii_of_N (55 + n).

Fixpoint encodeURIComponent (s : string) : string :=
  match s with
  | EmptyString => EmptyString
  | String c rest =>
      if is_unreserved c
      then String c (encodeURIComponent rest)
      else String "%"
             (String (hex_digit (Ascii.N_of_ascii c / 16))
                (String (hex_digit (Ascii.N_of_ascii c mod 16))
                   (encodeURIComponent rest)))
  end.

(** The characters [encodeURIComponent] can produce. *)
Definition is_uri_safe (c : Ascii.ascii) : bool :=
  is_unreserved c || Ascii.eqb c "%".

(** The value of a hex digit, and the byte two of them spell. *)
Definition hex_value (c : Ascii.ascii) : N :=
  if between 48 57 c then (Ascii.N_of_ascii c - 48)%N
  else (Ascii.N_of_ascii c - 55)%N.

Definition byte_of_hex (hi lo : Ascii.ascii) : Ascii.ascii :=
  Ascii.ascii_of_N (16 * hex_value hi + hex_value lo).

End Uri.

(** ** The request handlers *)

Module Handlers.
Import Js Platform Runner Registry Uri.


(** [`/link?fname=${encodeURIComponent(fname)}`] *)
Definition link (fname : string) : string :=
  "/link?fname=" +:+ encodeURIComponent fname.


    (* an array has no [mv]: the call throws a [TypeError] *)


(** The form of [/api/ereader] as the handler sees it: what
    [new URL(req.body.url)] gives (the message of the exception it throws,
    or the URL as a string), [req.body.format] and
    [parseInt(req.body.timeout)]. *)
Record EreaderForm := mkEreaderForm {
  parsed_url : string + string;
  format : option string;
  timeout : number
}.

(** [`${format}`] *)
Definition format_text (f : option string) : string :=
  default "undefined" f.

Inductive EreaderResponse :=
| Launched (html : string)
    (* [res.send(html)] *)
| Failed (http_status : Z) (error : string).
    (* [res.status(n).send({ id: null, status: 'error', error })] *)

(** A job started by the handler: the state of its [exec], the promise
    object registered for it and the redirect it resolves to. *)
Record Job := mkJob {
  runner : Exec;
  promise_ref : Ref;
  redirect : string
}.

Record Launch := mkLaunch {
  response : EreaderResponse;
  registry : gmap string Ref;
  job : option Job
}.

Definition dquote : string := String (Ascii.ascii_of_nat 34) EmptyString.

Definition file_name (basename : string) (f : option string) : string :=
  basename +:+ "." +:+ format_text f.

(** [app.post('/api/ereader', ...)].  [body] is [req.body], which is
    [undefined] unless the request was a multipart form; [basename] and
    [jobId] are the two identifiers [uuidv4()] returns, [r] is the new
    promise object and [child] the process id of the new process; as in
    [exec], the call of [spawn] is taken to return a child. *)
Definition api_ereader (body : option EreaderForm) (basename jobId : string)
           (r : Ref) (child : Z) (o : Os) (jobs : gmap string Ref) : Launch :=
  match body with
  | None =>
      {| response :=
           Failed 500 "Cannot read properties of undefined (reading 'url')";
         registry := jobs;
         job := None |}
  | Some form =>
      match parsed_url form with
      | inl thrown =>
          {| response := Failed 500 thrown; registry := jobs; job := None |}
      | inr url =>
          let fname := file_name basename (format form) in
          let path := "./public/files/" +:+ fname in
          let arguments :=
            ["percollate"; format_text (format form); "--output"; path; url] in
          let started := exec "npx" arguments (Some (timeout form)) child o in
          let '(id, jobs') := launchJob jobId r jobs in
          {| response :=
               Launched ("Job launched: <a href=" +:+ dquote +:+ "/api/job/"
                         +:+ id +:+ dquote +:+ ">" +:+ id +:+ "</a>");
             registry := jobs';
             job := Some {| runner := started; promise_ref := r;
                            redirect := link fname |} |}
      end
  end.




End Handlers.

(** ** Facts about the runner *)

Module RunnerFacts.
Import Js Platform Runner Scenario.

(** *** Strings *)

Lemma length_append (a b : string) :
  String.length (a +:+ b) = (String.length a + String.length b)%nat.
Proof. induction a as [|c a IH]; simpl; [reflexivity | now rewrite IH]. Qed.

Lemma append_inj_l (t a b : string) : a +:+ t = b +:+ t → a = b.
Proof.
  revert b; induction a as [|c a IH]; intros [|d b] H; simpl in H.
  - reflexivity.
  - apply (f_equal String.length) in H.
    rewrite !length_append in H; simpl in H; lia.
  - apply (f_equal String.length) in H.
    rewrite !length_append in H; simpl in H; lia.
  - injection H as -> H. f_equal. now apply IH.
Qed.

Lemma append_empty_r (s : string) : s +:+ "" = s.
Proof.
  induction s as [|c s IH]; [reflexivity |].
  change (String c (s +:+ "") = String c s). now rewrite IH.
Qed.

(** [join('')] concatenates, adding nothing between the parts. *)
Lemma join_no_separator (l : list string) :
  join "" l = foldr String.append "" l.
Proof.
  induction l as [|x [|y l] IH].
  - reflexivity.
  - symmetry. apply append_empty_r.
  - change (x +:+ join "" (y :: l) = x +:+ foldr String.append "" (y :: l)).
    now rewrite IH.
Qed.

(** *** The timeout in seconds *)

Lemma timeout_seconds_falsy (t : number) :
  to_boolean t = false → timeout_seconds (Some t) = Int 60.
Proof. intros H. unfold timeout_seconds, logical_or; simpl. now rewrite H. Qed.

Lemma timeout_seconds_truthy (t : number) :
  to_boolean t = true → timeout_seconds (Some t) = t.
Proof. intros H. unfold timeout_seconds, logical_or; simpl. now rewrite H. Qed.

(** Without the option the default of the parameter list is used. *)
Lemma timeout_seconds_omitted : timeout_seconds None = Int 60000.
Proof. reflexivity. Qed.

Lemma timeout_seconds_is_integer (t : option number) :
  ∃ z, timeout_seconds t = Int z ∧ z ≠ 0.
Proof.
  destruct t as [[z|]|]; unfold timeout_seconds, logical_or; simpl.
  - destruct (Z.eqb_spec z 0); simpl; [exists 60 | exists z]; split; done.
  - exists 60; split; [done | lia].
  - exists 60000; split; [done | lia].
Qed.

(** The timer always waits a thousand times the seconds of the message. *)
Lemma timer_delay_seconds (t : option number) :
  ∃ z, timeout_seconds t = Int z ∧ timer_delay t = Int (z * 1000).
Proof.
  destruct (timeout_seconds_is_integer t) as (z & Hz & _).
  exists z; split; [done |]. unfold timer_delay. now rewrite Hz.
Qed.

(** *** The handlers, one at a time *)

(** [cmd] is bound nowhere, so building the text of the [catch] block
    raises a [ReferenceError] whatever the state. *)
Lemma kill_failure_text_throws (s : Exec) :
  kill_failure_text s = inl (ReferenceError "cmd is not defined").
Proof. reflexivity. Qed.

Lemma on_timeout_promise (s : Exec) :
  promise (on_timeout s)
  = reject (Error (timeout_message (timeoutSeconds s))) (promise s).
Proof.
  unfold on_timeout. destruct (process_kill _ _ _) as [o [exc|]]; reflexivity.
Qed.

Lemma on_timeout_kills (s : Exec) :
  kills (os (on_timeout s)) = kills (os s) ++ [(- pid s, SIGKILL)].
Proof.
  unfold on_timeout, process_kill. simpl.
  repeat case_decide; reflexivity.
Qed.

(** When [process.kill] throws, nothing is written to the console and the
    exception of the [catch] block leaves the callback. *)
Lemma on_timeout_kill_throws (s : Exec) (o : Os) (exc : Exn) :
  process_kill (- pid s) SIGKILL (os s) = (o, Some exc) →
  console (on_timeout s) = console s
  ∧ uncaught (on_timeout s) = Some (ReferenceError "cmd is not defined").
Proof. intros H. unfold on_timeout. rewrite H. split; reflexivity. Qed.

Lemma on_timeout_kill_succeeds (s : Exec) (o : Os) :
  process_kill (- pid s) SIGKILL (os s) = (o, None) →
  console (on_timeout s) = console s ∧ uncaught (on_timeout s) = uncaught s.
Proof. intros H. unfold on_timeout. rewrite H. split; reflexivity. Qed.

Lemma on_close_promise (code : ExitCode) (s : Exec) :
  promise (on_close code s)
  = if is_zero code then resolve (join "" (buffer s)) (promise s)
    else reject (Error (exit_message code)) (promise s).
Proof. unfold on_close. destruct (is_zero code); reflexivity. Qed.

Lemma on_close_timer (code : ExitCode) (s : Exec) :
  timer (on_close code s) = clearTimeout (timer s).
Proof. unfold on_close. destruct (is_zero code); reflexivity. Qed.

Lemma is_zero_iff (code : ExitCode) : is_zero code = true ↔ code = Code 0.
Proof.
  destruct code as [n|]; simpl; [|split; discriminate].
  rewrite Z.eqb_eq. split; [now intros -> | now intros [= ->]].
Qed.

(** *** Runs *)

Lemma run_app (s : Exec) (a b : list Event) : run s (a ++ b) = run (run s a) b.
Proof. apply fold_left_app. Qed.

Lemma run_cons (s : Exec) (e : Event) (rest : list Event) :
  run s (e :: rest) = run (step s e) rest.
Proof. reflexivity. Qed.

(** Output and error events leave promise, timer and processes alone and
    append to the buffer in arrival order. *)
Lemma run_quiet (events : list Event) (s : Exec) :
  forallb is_quiet events = true →
  uncaught s = None →
  promise (run s events) = promise s
  ∧ timer (run s events) = timer s
  ∧ uncaught (run s events) = None
  ∧ buffer (run s events) = buffer s ++ chunks events
  ∧ os (run s events) = os s
  ∧ pid (run s events) = pid s
  ∧ timeoutSeconds (run s events) = timeoutSeconds s.
Proof.
  revert s. induction events as [|e rest IH]; intros s Hq Hlive.
  - simpl. rewrite app_nil_r. tauto.
  - simpl in Hq. apply andb_prop in Hq as [He Hrest].
    rewrite run_cons.
    assert (uncaught (step s e) = None) as Hlive'.
    { unfold step. rewrite Hlive. destruct e; try discriminate; exact Hlive. }
    destruct (IH (step s e) Hrest Hlive') as (Hp & Ht & Hu & Hb & Ho & Hpid & Hsec).
    rewrite Hp, Ht, Hu, Hb, Ho, Hpid, Hsec.
    unfold step. rewrite Hlive.
    destruct e; try discriminate; simpl;
      rewrite <- ?app_assoc; tauto.
Qed.

(** A settled promise stays as it is, whatever is delivered. *)
Lemma step_settled (s : Exec) (e : Event) :
  is_settled (promise s) = true → promise (step s e) = promise s.
Proof.
  intros H. unfold step. destruct (uncaught s); [reflexivity |].
  destruct e; try reflexivity.
  - rewrite on_close_promise. simpl.
    destruct (promise s); [discriminate | |]; destruct (is_zero code); reflexivity.
  - destruct (timer s); try reflexivity.
    rewrite on_timeout_promise. simpl.
    destruct (promise s); [discriminate | |]; reflexivity.
Qed.

Lemma run_settled (events : list Event) (s : Exec) :
  is_settled (promise s) = true → promise (run s events) = promise s.
Proof.
  revert s. induction events as [|e rest IH]; intros s H; [reflexivity |].
  rewrite run_cons, IH; rewrite step_settled; auto.
Qed.

(** While nothing has gone wrong, the first close or expiry settles. *)
Lemma step_settles (s : Exec) (e : Event) (delay : number) :
  promise s = Pending → timer s = Armed delay → uncaught s = None →
  is_quiet e = false →
  is_settled (promise (step s e)) = true.
Proof.
  intros Hp Ht Hu He. unfold step. rewrite Hu.
  destruct e; try discriminate.
  - rewrite on_close_promise. simpl. rewrite Hp.
    destruct (is_zero code); reflexivity.
  - rewrite Ht, on_timeout_promise. simpl. now rewrite Hp.
Qed.

Lemma settlements_app (a b : list Event) (s : Exec) :
  settlements s (a ++ b) = (settlements s a + settlements (run s a) b)%nat.
Proof.
  revert s. induction a as [|e a IH]; intros s; [reflexivity |].
  rewrite <- app_comm_cons. cbn [settlements]. rewrite IH, run_cons. lia.
Qed.

Lemma settlements_unchanged (events : list Event) (s : Exec) :
  (∀ k, promise (run s (take k events)) = promise s) →
  settlements s events = 0%nat.
Proof.
  revert s. induction events as [|e rest IH]; intros s H; [reflexivity |].
  simpl. pose proof (H 1%nat) as H1. simpl in H1.
  rewrite bool_decide_eq_true_2 by exact H1.
  apply IH. intros k. rewrite H1. exact (H (S k)).
Qed.

Lemma step_quiet_promise (s : Exec) (e : Event) :
  is_quiet e = true → promise (step s e) = promise s.
Proof.
  intros He. unfold step. destruct (uncaught s); [reflexivity |].
  destruct e; try discriminate; reflexivity.
Qed.

Lemma settlements_quiet (events : list Event) (s : Exec) :
  forallb is_quiet events = true → settlements s events = 0%nat.
Proof.
  revert s. induction events as [|e rest IH]; intros s Hq; [reflexivity |].
  simpl in Hq. apply andb_prop in Hq as [He Hrest].
  cbn [settlements]. rewrite (step_quiet_promise s e He).
  rewrite bool_decide_eq_true_2 by reflexivity. now apply IH.
Qed.

Lemma settlements_settled (events : list Event) (s : Exec) :
  is_settled (promise s) = true → settlements s events = 0%nat.
Proof.
  intros H. apply settlements_unchanged. intros k. now apply run_settled.
Qed.

(** The state in which the first close or expiry finds an [exec]. *)
Lemma exec_then_quiet (cmd : string) (arguments : list string)
      (t : option number) (child : Z) (o : Os) (quiet : list Event) :
  forallb is_quiet quiet = true →
  let s := run (exec cmd arguments t child o) quiet in
  promise s = Pending
  ∧ timer s = Armed (timer_delay t)
  ∧ uncaught s = None
  ∧ buffer s = chunks quiet
  ∧ os s = spawn child default_options o
  ∧ pid s = child
  ∧ timeoutSeconds s = timeout_seconds t.
Proof.
  intros Hq s.
  destruct (run_quiet quiet (exec cmd arguments t child o) Hq eq_refl)
    as (Hp & Ht & Hu & Hb & Ho & Hpid & Hsec).
  subst s. rewrite Hp, Ht, Hu, Hb, Ho, Hpid, Hsec. tauto.
Qed.

(** *** The default timeout *)

(** C1, as stated, fails: a timeout of zero arms the timer for 60,000 ms,
    a timeout of 60000 arms it for 60,000,000 ms, so the two calls do not
    behave alike. *)
Lemma zero_timeout_is_not_60000 :
  timer (exec "sleep" ["100"] (Some (Int 0)) 101 server) = Armed (Int 60000)
  ∧ timer (exec "sleep" ["100"] (Some (Int 60000)) 101 server)
    = Armed (Int 60000000)
  ∧ exec "sleep" ["100"] (Some (Int 0)) 101 server
    ≠ exec "sleep" ["100"] (Some (Int 60000)) 101 server.
Proof.
  split; [reflexivity | split; [reflexivity |]].
  intros H. apply (f_equal timer) in H. discriminate H.
Qed.

(** C1, amended: the timeout is a number of seconds, and a falsy one (zero
    or [NaN]) behaves exactly like a timeout of 60: the two calls start in
    the same state, with the timer armed for 60,000 ms. *)
Theorem falsy_timeout_is_sixty_seconds
        (cmd : string) (arguments : list string) (t : number)
        (child : Z) (o : Os) :
  to_boolean t = false →
  exec cmd arguments (Some t) child o = exec cmd arguments (Some (Int 60)) child o
  ∧ timer (exec cmd arguments (Some t) child o) = Armed (Int 60000).
Proof.
  intros H. unfold exec, timer_delay.
  rewrite (timeout_seconds_falsy t H). split; reflexivity.
Qed.

Lemma falsy_timeout_is_sixty_seconds_witness :
  to_boolean (Int 0) = false
  ∧ exec "sleep" ["100"] (Some (Int 0)) 101 server
    = exec "sleep" ["100"] (Some (Int 60)) 101 server
  ∧ timer (exec "sleep" ["100"] (Some NaN) 101 server) = Armed (Int 60000).
Proof.
  split; [reflexivity |]. split.
  - apply (falsy_timeout_is_sixty_seconds "sleep" ["100"] (Int 0) 101 server).
    reflexivity.
  - apply (falsy_timeout_is_sixty_seconds "sleep" ["100"] NaN 101 server).
    reflexivity.
Defined.

(** Without the option the parameter default 60000 is read as seconds. *)
Lemma omitted_timeout_delay (cmd : string) (arguments : list string)
      (child : Z) (o : Os) :
  timer (exec cmd arguments None child o) = Armed (Int 60000000).
Proof. reflexivity. Qed.

(** When the timer expires before the child closes, the promise is
    rejected with the message that names the seconds the timer waited. *)
Lemma timeout_rejects_with_seconds (cmd : string) (arguments : list string)
      (t : option number) (child : Z) (o : Os) (quiet : list Event) :
  forallb is_quiet quiet = true →
  let s := run (exec cmd arguments t child o) (quiet ++ [TimerExpired]) in
  promise s = Rejected (Error (timeout_message (timeout_seconds t)))
  ∧ timer s = Fired
  ∧ kills (os s) = kills o ++ [(- child, SIGKILL)].
Proof.
  intros Hq s.
  destruct (exec_then_quiet cmd arguments t child o quiet Hq)
    as (Hp & Ht & Hu & _ & Ho & Hpid & Hsec).
  subst s. rewrite run_app.
  set (s1 := run (exec cmd arguments t child o) quiet) in *.
  assert (run s1 [TimerExpired] = on_timeout (set_timer Fired s1)) as ->.
  { cbn [run fold_left]. unfold step. now rewrite Hu, Ht. }
  split; [| split].
  - rewrite on_timeout_promise. cbn. now rewrite Hp, Hsec.
  - unfold on_timeout. destruct (process_kill _ _ _) as [o' [exc|]]; reflexivity.
  - rewrite on_timeout_kills. cbn. now rewrite Ho, Hpid.
Qed.

(** *** Settlement *)

(** Once the timer is no longer armed, no kill is issued any more. *)
Lemma run_disarmed (events : list Event) (s : Exec) :
  (∀ delay, timer s ≠ Armed delay) →
  kills (os (run s events)) = kills (os s).
Proof.
  revert s. induction events as [|e rest IH]; intros s Hoff; [reflexivity |].
  rewrite run_cons.
  assert (kills (os (step s e)) = kills (os s)
          ∧ ∀ delay, timer (step s e) ≠ Armed delay) as [Hk Hoff'].
  { unfold step. destruct (uncaught s); [done |].
    destruct e; try done.
    - unfold on_close. destruct (is_zero code); simpl;
        (split; [done | destruct (timer s); done]).
    - destruct (timer s) as [delay| |] eqn:Ht; [| split; congruence ..].
      destruct (Hoff delay eq_refl). }
  now rewrite IH.
Qed.

(** C5: the promise of an [exec] is pending until the first close or
    timer expiry, settled by that event, and unchanged by everything
    delivered afterwards, a late close or expiry included; over the whole
    run its state changes exactly once.  If the timer expired first, the
    outcome stays the timeout failure whatever close follows; if the child
    closed first, no kill is ever issued. *)
Theorem exec_settles_exactly_once
        (cmd : string) (arguments : list string) (t : option number)
        (child : Z) (o : Os) (quiet : list Event) (e : Event)
        (rest : list Event) :
  forallb is_quiet quiet = true →
  is_quiet e = false →
  let s0 := exec cmd arguments t child o in
  promise (run s0 quiet) = Pending
  ∧ is_settled (promise (run s0 (quiet ++ [e]))) = true
  ∧ (∀ k, promise (run s0 (quiet ++ e :: take k rest))
          = promise (run s0 (quiet ++ [e])))
  ∧ settlements s0 (quiet ++ e :: rest) = 1%nat
  ∧ (e = TimerExpired →
     promise (run s0 (quiet ++ e :: rest))
     = Rejected (Error (timeout_message (timeout_seconds t))))
  ∧ (∀ code, e = Close code →
     kills (os (run s0 (quiet ++ e :: rest))) = kills o).
Proof.
  intros Hq He s0.
  destruct (exec_then_quiet cmd arguments t child o quiet Hq)
    as (Hp & Ht & Hu & _ & Ho & _).
  fold s0 in Hp, Ht, Hu, Ho.
  assert (is_settled (promise (step (run s0 quiet) e)) = true) as Hset
    by (eapply step_settles; eauto).
  assert (∀ later, promise (run s0 (quiet ++ e :: later))
                   = promise (run s0 (quiet ++ [e]))) as Hstable.
  { intros later.
    change (quiet ++ e :: later) with (quiet ++ [e] ++ later).
    rewrite app_assoc, (run_app _ (quiet ++ [e])).
    apply run_settled. now rewrite run_app. }
  split; [exact Hp |]. split; [now rewrite run_app |].
  split; [intros k; apply Hstable |]. split; [| split].
  - rewrite settlements_app, (settlements_quiet quiet s0 Hq).
    cbn [settlements]. rewrite (settlements_settled rest _ Hset).
    rewrite bool_decide_eq_false_2; [reflexivity |].
    rewrite Hp. intros Heq. rewrite Heq in Hset. discriminate Hset.
  - intros ->. rewrite Hstable.
    apply (timeout_rejects_with_seconds cmd arguments t child o quiet Hq).
  - intros code ->. rewrite run_app, run_cons, run_disarmed.
    + unfold step. rewrite Hu. unfold on_close.
      destruct (is_zero code); simpl; now rewrite Ho.
    + intros delay. unfold step. rewrite Hu, on_close_timer. simpl.
      now rewrite Ht.
Qed.

Lemma exec_settles_exactly_once_witness :
  forallb is_quiet [Data "partial"] = true
  ∧ is_quiet TimerExpired = false
  ∧ settlements sleeper [Data "partial"; TimerExpired; Close Null] = 1%nat
  ∧ promise (run sleeper [Data "partial"; TimerExpired; Close Null])
    = Rejected (Error "Process timed out after 1 seconds.").
Proof.
  split; [reflexivity |]. split; [reflexivity |].
  pose proof (exec_settles_exactly_once "sleep" ["100"] (Some (Int 1)) 101
                server [Data "partial"] TimerExpired [Close Null]
                eq_refl eq_refl) as (_ & _ & _ & Hone & Htimeout & _).
  split; [exact Hone | exact (Htimeout eq_refl)].
Defined.

(** *** The child exits first *)

(** C7: when the child closes with code 0 before the timer expires, the
    timer is cleared, so that its expiry is never delivered and no kill is
    issued, and the promise is fulfilled with the chunks of standard
    output appended in arrival order, nothing in between. *)
Theorem exit_zero_fulfils_with_output
        (cmd : string) (arguments : list string) (t : option number)
        (child : Z) (o : Os) (quiet : list Event) :
  forallb is_quiet quiet = true →
  let s := run (exec cmd arguments t child o) (quiet ++ [Close (Code 0)]) in
  promise s = Fulfilled (foldr String.append "" (chunks quiet))
  ∧ timer s = Cleared
  ∧ step s TimerExpired = s
  ∧ kills (os s) = kills o.
Proof.
  intros Hq s.
  destruct (exec_then_quiet cmd arguments t child o quiet Hq)
    as (Hp & Ht & Hu & Hb & Ho & _).
  assert (timer s = Cleared) as Hcleared.
  { subst s. rewrite run_app. cbn [run fold_left]. unfold step at 1.
    rewrite Hu, on_close_timer. cbn. now rewrite Ht. }
  split; [| split; [exact Hcleared | split]].
  - subst s. rewrite run_app. cbn [run fold_left]. unfold step at 1.
    rewrite Hu, on_close_promise. cbn. rewrite Hp, Hb.
    now rewrite join_no_separator.
  - unfold step. rewrite Hcleared. now destruct (uncaught s).
  - subst s. rewrite run_app. cbn [run fold_left]. unfold step at 1.
    rewrite Hu. unfold on_close. cbn. now rewrite Ho.
Qed.

Lemma exit_zero_fulfils_with_output_witness :
  forallb is_quiet [Data "hello"; Data "world"] = true
  ∧ promise (run echo [Data "hello"; Data "world"; Close (Code 0)])
    = Fulfilled "helloworld".
Proof.
  split; [reflexivity |].
  apply (exit_zero_fulfils_with_output "echo" [] None 101 server
           [Data "hello"; Data "world"]).
  reflexivity.
Defined.

Lemma exit_message_inj (m n : Z) :
  exit_message (Code m) = exit_message (Code n) → m = n.
Proof.
  unfold exit_message. intros H.
  apply (inj (String.append _)) in H.
  apply append_inj_l in H. simpl in H. now apply pretty_Z_inj in H.
Qed.

Lemma exit_message_is_not_timeout_message (code : ExitCode) (seconds : number) :
  exit_message code ≠ timeout_message seconds.
Proof. unfold exit_message, timeout_message. intros H. discriminate H. Qed.

(** C8: when the child closes with a code other than 0 before the timer
    expires, the promise is rejected with an error whose only content is
    the message ["Process exited with non-zero code <code>."]; the message
    determines the code and is never the message of a timeout. *)
Theorem nonzero_exit_rejects_with_code
        (cmd : string) (arguments : list string) (t : option number)
        (child : Z) (o : Os) (quiet : list Event) (n : Z) :
  forallb is_quiet quiet = true →
  n ≠ 0 →
  promise (run (exec cmd arguments t child o) (quiet ++ [Close (Code n)]))
  = Rejected (Error ("Process exited with non-zero code " +:+ pretty n +:+ "."))
  ∧ (∀ m, exit_message (Code m) = exit_message (Code n) → m = n)
  ∧ (∀ seconds, exit_message (Code n) ≠ timeout_message seconds).
Proof.
  intros Hq Hn.
  destruct (exec_then_quiet cmd arguments t child o quiet Hq)
    as (Hp & _ & Hu & _).
  split; [| split].
  - rewrite run_app. cbn [run fold_left]. unfold step at 1.
    rewrite Hu, on_close_promise. cbn.
    rewrite (proj2 (Z.eqb_neq n 0) Hn), Hp. reflexivity.
  - intros m. apply exit_message_inj.
  - intros seconds. apply exit_message_is_not_timeout_message.
Qed.

Lemma nonzero_exit_rejects_with_code_witness :
  forallb is_quiet [Data "oops"] = true
  ∧ 3 ≠ 0
  ∧ promise (run echo [Data "oops"; Close (Code 3)])
    = Rejected (Error "Process exited with non-zero code 3.").
Proof.
  split; [reflexivity |]. split; [lia |].
  apply (nonzero_exit_rejects_with_code "echo" [] None 101 server
           [Data "oops"] 3); [reflexivity | lia].
Defined.

(** C10, as stated, fails in the very case it names: when the close that
    delivers [null] comes after the timer has expired, the promise is
    already rejected with the timeout message and stays so; the handler's
    [reject] with the message of the [null] code has no effect. *)
Lemma null_close_after_timeout_keeps_the_timeout :
  promise (run sleeper [TimerExpired; Close Null])
  = Rejected (Error "Process timed out after 1 seconds.")
  ∧ promise (on_close Null (run sleeper [TimerExpired]))
    = Rejected (Error "Process timed out after 1 seconds.")
  ∧ promise (run sleeper [TimerExpired; Close Null])
    ≠ Rejected (Error "Process exited with non-zero code null.").
Proof.
  split; [vm_compute; reflexivity |]. split; [vm_compute; reflexivity |].
  vm_compute. intros H. discriminate H.
Qed.

(** C10, amended: a close that delivers [null] takes the branch of the
    non-zero codes.  While the promise is still pending this rejects it
    with ["Process exited with non-zero code null."]; when the timer has
    expired before, the promise keeps the timeout failure and the call of
    [reject] changes nothing.  The promise is fulfilled only when the code
    delivered is the number 0. *)
Theorem null_exit_code_rejects_a_pending_promise
        (cmd : string) (arguments : list string) (t : option number)
        (child : Z) (o : Os) (quiet : list Event) :
  forallb is_quiet quiet = true →
  let s0 := exec cmd arguments t child o in
  promise (run s0 (quiet ++ [Close Null]))
  = Rejected (Error "Process exited with non-zero code null.")
  ∧ promise (run s0 (quiet ++ [TimerExpired; Close Null]))
    = Rejected (Error (timeout_message (timeout_seconds t)))
  ∧ (∀ s, promise s = Pending →
          promise (on_close Null s)
          = Rejected (Error "Process exited with non-zero code null."))
  ∧ (∀ s, is_settled (promise s) = true →
          promise (on_close Null s) = promise s)
  ∧ (∀ code, (∃ v, promise (run s0 (quiet ++ [Close code])) = Fulfilled v)
             ↔ code = Code 0).
Proof.
  intros Hq s0.
  destruct (exec_then_quiet cmd arguments t child o quiet Hq)
    as (Hp & _ & Hu & _).
  fold s0 in Hp, Hu.
  assert (∀ code, promise (run s0 (quiet ++ [Close code]))
                  = if is_zero code
                    then Fulfilled (join "" (buffer (run s0 quiet)))
                    else Rejected (Error (exit_message code))) as Hclose.
  { intros code. rewrite run_app. cbn [run fold_left]. unfold step at 1.
    rewrite Hu, on_close_promise. cbn. rewrite Hp.
    destruct (is_zero code); reflexivity. }
  split; [apply Hclose |]. split; [| split; [| split]].
  - change (quiet ++ [TimerExpired; Close Null])
      with (quiet ++ [TimerExpired] ++ [Close Null]).
    rewrite app_assoc, (run_app _ (quiet ++ [TimerExpired])).
    destruct (timeout_rejects_with_seconds cmd arguments t child o quiet Hq)
      as (Ht & _).
    fold s0 in Ht. rewrite run_settled; [exact Ht | now rewrite Ht].
  - intros s Hs. rewrite on_close_promise. simpl. now rewrite Hs.
  - intros s Hs. rewrite on_close_promise. simpl.
    destruct (promise s); [discriminate Hs | reflexivity | reflexivity].
  - intros code. rewrite Hclose, <- is_zero_iff.
    destruct (is_zero code); split; eauto; try discriminate.
    intros [v Hv]. discriminate Hv.
Qed.

Lemma null_exit_code_rejects_a_pending_promise_witness :
  forallb is_quiet [Data "half"] = true
  ∧ promise (run sleeper [Data "half"; Close Null])
    = Rejected (Error "Process exited with non-zero code null.")
  ∧ promise (run sleeper [Data "half"; TimerExpired; Close Null])
    = Rejected (Error "Process timed out after 1 seconds.").
Proof.
  split; [reflexivity |].
  pose proof (null_exit_code_rejects_a_pending_promise
                "sleep" ["100"] (Some (Int 1)) 101 server [Data "half"]
                eq_refl) as (Hnull & Hlate & _).
  split; [exact Hnull | exact Hlate].
Defined.

(** *** The timer expires first *)

(** The child is put into the group of the server. *)
Lemma exec_child_group (cmd : string) (arguments : list string)
      (t : option number) (child : Z) (o : Os) :
  pgid (os (exec cmd arguments t child o)) child
  = Some (default (self o) (pgid o (self o))).
Proof. unfold exec, spawn, pgid; simpl. apply lookup_insert_eq. Qed.

(** A process id is handed out only while no group bears it, so after
    [exec] the group named by the child is empty. *)
Lemma exec_leaves_group_empty (cmd : string) (arguments : list string)
      (t : option number) (child : Z) (o : Os) :
  group_members child (procs o) = ∅ →
  default (self o) (pgid o (self o)) ≠ child →
  group_members child (procs (os (exec cmd arguments t child o))) = ∅.
Proof.
  intros Hfresh Hgroup. unfold exec, spawn, group_members in *; simpl.
  rewrite map_filter_insert_False by (simpl; exact Hgroup).
  rewrite map_filter_delete, Hfresh. apply delete_empty.
Qed.

(** Hence the kill at the negated process id of the child has nothing to
    signal and throws. *)
Lemma exec_group_kill_throws (cmd : string) (arguments : list string)
      (t : option number) (child : Z) (o : Os) :
  0 < child →
  group_members child (procs o) = ∅ →
  default (self o) (pgid o (self o)) ≠ child →
  let s := exec cmd arguments t child o in
  snd (process_kill (- pid s) SIGKILL (os s)) = Some (SystemError "ESRCH")
  ∧ procs (fst (process_kill (- pid s) SIGKILL (os s))) = procs (os s).
Proof.
  intros Hpos Hfresh Hgroup s.
  pose proof (exec_leaves_group_empty cmd arguments t child o Hfresh Hgroup)
    as Hempty.
  unfold process_kill. cbn [fst snd procs].
  change (pid s) with child. destruct (decide (- child < 0)); [| lia].
  rewrite Z.opp_involutive. fold s in Hempty. rewrite Hempty.
  rewrite !decide_True by reflexivity. split; reflexivity.
Qed.

(** C4: [exec] calls [spawn(command, args)] with no options, so the child
    is not detached: in the run of [sleeper] the child 101 is a member of
    the server's group 100, no group 101 exists, and the kill at -101
    throws [ESRCH] and ends no process. *)
Theorem exec_child_stays_in_server_group :
  detached default_options = false
  ∧ pgid (os sleeper) (pid sleeper) = Some 100
  ∧ group_members (pid sleeper) (procs (os sleeper)) = ∅
  ∧ snd (process_kill (- pid sleeper) SIGKILL (os sleeper))
    = Some (SystemError "ESRCH")
  ∧ pgid (fst (process_kill (- pid sleeper) SIGKILL (os sleeper))) 101
    = Some 100.
Proof. repeat split; vm_compute; reflexivity. Qed.

(** C3: in the run of [sleeper] the timer expires and the kill throws;
    the promise is rejected with the timeout message, but nothing is
    written to the console and a [ReferenceError] leaves the callback,
    because the [catch] block reads the unbound identifier [cmd]. *)
Theorem kill_failure_escapes_timer_callback :
  let s := run sleeper [TimerExpired] in
  snd (process_kill (- pid sleeper) SIGKILL (os sleeper))
  = Some (SystemError "ESRCH")
  ∧ promise s = Rejected (Error "Process timed out after 1 seconds.")
  ∧ console s = []
  ∧ uncaught s = Some (ReferenceError "cmd is not defined").
Proof. repeat split; vm_compute; reflexivity. Qed.

(** C6: in the run of [sleeper] the timer, armed for 1000 ms, expires;
    [SIGKILL] is sent to group 101 and the promise is rejected with
    ["Process timed out after 1 seconds."], but the signal reaches no
    process: the child 101 is still alive, in group 100. *)
Theorem timeout_kill_reaches_no_process :
  let s := run sleeper [TimerExpired] in
  timer sleeper = Armed (Int 1000)
  ∧ kills (os s) = [(-101, SIGKILL)]
  ∧ promise s = Rejected (Error "Process timed out after 1 seconds.")
  ∧ pgid (os s) 101 = Some 100
  ∧ procs (os s) = procs (os sleeper).
Proof. repeat split; vm_compute; reflexivity. Qed.

End RunnerFacts.

(** ** Facts about the registry and the poll handler *)

Module RegistryFacts.
Import Js Registry Scenario.

Lemma launchJobs_cons (jobId : string) (promise : Ref)
      (rest : list (string * Ref)) (jobs : gmap string Ref) :
  launchJobs ((jobId, promise) :: rest) jobs
  = (jobId :: (launchJobs rest (<[jobId := promise]> jobs)).1,
     (launchJobs rest (<[jobId := promise]> jobs)).2).
Proof.
  simpl. destruct (launchJobs rest (<[jobId := promise]> jobs)); reflexivity.
Qed.








(** An identifier without an entry is answered with status 200 and
    ['finished']. *)
Lemma job_get_unknown (jobs : gmap string Ref) (state_of : Ref → Settlement)
      (jobId : string) :
  lookup jobs jobId = None →
  job_get jobs state_of jobId
  = Some (Send 200 {| id := jobId; status := "finished"; error := None |}).
Proof. intros H. unfold job_get. rewrite H. reflexivity. Qed.

(** A rejected job is answered with status 500 and the message. *)
Lemma job_get_rejected (jobs : gmap string Ref) (state_of : Ref → Settlement)
      (jobId : string) (r : Ref) (exc : Exn) :
  lookup jobs jobId = Some r → state_of r = Rejected exc →
  job_get jobs state_of jobId
  = Some (Send 500 {| id := jobId; status := "error";
                      error := Some (message exc) |}).
Proof. intros H Hr. unfold job_get. rewrite H. simpl. now rewrite Hr. Qed.

(** C2: with only ["job-a"] registered, the lookup of ["job-b"] yields
    [undefined], not the promise of ["job-a"]; the poll handler then
    answers with status 200 and [{ id: 'job-b', status: 'finished' }],
    which is no error, while the failed ["job-a"] is answered with status
    500 and ['error']. *)
Theorem unknown_job_is_reported_finished :
  lookup one_job "job-b" = None
  ∧ job_get one_job timed_out "job-b"
    = Some (Send 200 {| id := "job-b"; status := "finished"; error := None |})
  ∧ (is_error <$> job_get one_job timed_out "job-b") = Some false
  ∧ (is_error <$> job_get one_job timed_out "job-a") = Some true.
Proof. repeat split; vm_compute; reflexivity. Qed.

End RegistryFacts.

(** ** More about the runner: whole runs *)

Module RunFacts.
Import Js Platform Runner Scenario Trace RunnerFacts.

Lemma run_crashed (events : list Event) (s : Exec) (exc : Exn) :
  uncaught s = Some exc → run s events = s.
Proof.
  intros H. induction events as [|e rest IH]; [reflexivity |].
  rewrite run_cons. unfold step. now rewrite H.
Qed.

Lemma on_timeout_console (s : Exec) : console (on_timeout s) = console s.
Proof.
  unfold on_timeout. destruct (process_kill _ _ _) as [o [exc|]]; reflexivity.
Qed.

Lemma on_timeout_buffer (s : Exec) : buffer (on_timeout s) = buffer s.
Proof.
  unfold on_timeout. destruct (process_kill _ _ _) as [o [exc|]]; reflexivity.
Qed.

Lemma on_timeout_timer (s : Exec) : timer (on_timeout s) = timer s.
Proof.
  unfold on_timeout. destruct (process_kill _ _ _) as [o [exc|]]; reflexivity.
Qed.

Lemma on_timeout_seconds (s : Exec) :
  timeoutSeconds (on_timeout s) = timeoutSeconds s.
Proof.
  unfold on_timeout. destruct (process_kill _ _ _) as [o [exc|]]; reflexivity.
Qed.

Lemma on_timeout_uncaught (s : Exec) :
  uncaught s = None →
  uncaught (on_timeout s) = None
  ∨ uncaught (on_timeout s) = Some (ReferenceError "cmd is not defined").
Proof.
  intros H. unfold on_timeout.
  destruct (process_kill _ _ _) as [o [exc|]]; simpl; auto.
Qed.

Lemma on_close_fields (code : ExitCode) (s : Exec) :
  console (on_close code s) = console s
  ∧ buffer (on_close code s) = buffer s
  ∧ uncaught (on_close code s) = uncaught s
  ∧ timeoutSeconds (on_close code s) = timeoutSeconds s.
Proof. unfold on_close. destruct (is_zero code); simpl; tauto. Qed.

(** What one delivered event adds to console and buffer. *)
Lemma step_console (s : Exec) (e : Event) :
  uncaught s = None →
  console (step s e) = console s ++ mirror [e]
  ∧ buffer (step s e) = buffer s ++ chunks [e].
Proof.
  intros H. unfold step. rewrite H. destruct e; simpl.
  - tauto.
  - now rewrite !app_nil_r.
  - destruct (on_close_fields code (set_os (reap (pid s) (os s)) s))
      as (-> & -> & _). simpl. now rewrite !app_nil_r.
  - rewrite !app_nil_r. destruct (timer s); try tauto.
    now rewrite on_timeout_console, on_timeout_buffer.
Qed.

Lemma mirror_cons (e : Event) (rest : list Event) :
  mirror (e :: rest) = mirror [e] ++ mirror rest.
Proof. destruct e; reflexivity. Qed.

Lemma chunks_cons (e : Event) (rest : list Event) :
  chunks (e :: rest) = chunks [e] ++ chunks rest.
Proof. destruct e; reflexivity. Qed.

Lemma run_console (events : list Event) (s : Exec) :
  uncaught (run s events) = None →
  console (run s events) = console s ++ mirror events
  ∧ buffer (run s events) = buffer s ++ chunks events.
Proof.
  revert s. induction events as [|e rest IH]; intros s Hend.
  - simpl. now rewrite !app_nil_r.
  - rewrite run_cons in *.
    assert (uncaught s = None) as Hlive.
    { destruct (uncaught s) as [exc|] eqn:Hs; [| reflexivity].
      assert (step s e = s) as Hstep by (unfold step; now rewrite Hs).
      rewrite Hstep, (run_crashed rest s exc Hs), Hs in Hend. discriminate Hend. }
    destruct (IH _ Hend) as [Hc Hb].
    destruct (step_console s e Hlive) as [Hc1 Hb1].
    rewrite Hc, Hb, Hc1, Hb1, (mirror_cons e rest), (chunks_cons e rest).
    now rewrite !app_assoc.
Qed.

Lemma outs_app (a b : list Log) : outs (a ++ b) = outs a ++ outs b.
Proof.
  induction a as [|[text|text] a IH]; simpl; [reflexivity | | exact IH].
  now rewrite IH.
Qed.

Lemma run_outs (events : list Event) (s : Exec) :
  outs (console s) = buffer s →
  outs (console (run s events)) = buffer (run s events).
Proof.
  revert s. induction events as [|e rest IH]; intros s H; [exact H |].
  rewrite run_cons. apply IH.
  destruct (uncaught s) as [exc|] eqn:Hs.
  - unfold step. now rewrite Hs.
  - destruct (step_console s e Hs) as [-> ->]. rewrite outs_app, H.
    destruct e; reflexivity.
Qed.

(** The promise after a run, from a state in which nothing is decided. *)
Lemma run_outcome (events : list Event) (s : Exec) (delay : number) :
  promise s = Pending → timer s = Armed delay → uncaught s = None →
  promise (run s events) = outcome (timeoutSeconds s) (buffer s) events.
Proof.
  revert s. induction events as [|e rest IH]; intros s Hp Ht Hu; [exact Hp |].
  rewrite run_cons. destruct e as [chunk|err|code|].
  - rewrite IH; unfold step; rewrite Hu; auto.
  - rewrite IH; unfold step; rewrite Hu; auto.
  - rewrite run_settled; [| now apply (step_settles s _ delay)].
    unfold step. rewrite Hu, on_close_promise. simpl. rewrite Hp.
    destruct (is_zero code); simpl; [| reflexivity].
    now rewrite join_no_separator.
  - rewrite run_settled; [| now apply (step_settles s _ delay)].
    unfold step. rewrite Hu, Ht, on_timeout_promise. simpl. now rewrite Hp.
Qed.

Lemma step_reachable (seconds : number) (s : Exec) (e : Event) :
  reachable seconds s → reachable seconds (step s e).
Proof.
  intros H. pose proof H as (Hsec & Harmed & Hcrash). unfold step.
  destruct (uncaught s) as [exc|] eqn:Hu; [exact H |].
  destruct e as [chunk|err|code|].
  - split; [exact Hsec | split; [exact Harmed |]].
    intros exc Hexc. simpl in Hexc. congruence.
  - split; [exact Hsec | split; [exact Harmed |]].
    intros exc Hexc. simpl in Hexc. congruence.
  - destruct (on_close_fields code (set_os (reap (pid s) (os s)) s))
      as (_ & _ & Hu' & Hsec').
    split; [now rewrite Hsec' | split].
    + intros delay. rewrite on_close_timer. simpl.
      destruct (timer s); discriminate.
    + intros exc. rewrite Hu'. simpl. rewrite Hu. discriminate.
  - destruct (timer s) as [delay| |] eqn:Ht; [| exact H | exact H].
    split; [now rewrite on_timeout_seconds | split].
    + intros d. rewrite on_timeout_timer. discriminate.
    + intros exc Hexc.
      destruct (on_timeout_uncaught (set_timer Fired s) Hu) as [Hn | Hr];
        [congruence |].
      rewrite Hr in Hexc. injection Hexc as <-.
      rewrite on_timeout_promise, on_timeout_timer. simpl.
      now rewrite (Harmed delay eq_refl), Hsec.
Qed.

Lemma run_reachable (seconds : number) (events : list Event) (s : Exec) :
  reachable seconds s → reachable seconds (run s events).
Proof.
  revert s. induction events as [|e rest IH]; intros s H; [exact H |].
  rewrite run_cons. apply IH. now apply step_reachable.
Qed.

Lemma exec_reachable (cmd : string) (arguments : list string)
      (t : option number) (child : Z) (o : Os) :
  reachable (timeout_seconds t) (exec cmd arguments t child o).
Proof. repeat split; simpl; intros; discriminate. Qed.

Lemma run_without_expiry (events : list Event) (s : Exec) :
  Forall (λ e, e ≠ TimerExpired) events →
  uncaught (run s events) = uncaught s.
Proof.
  revert s. induction events as [|e rest IH]; intros s H; [reflexivity |].
  apply Forall_cons in H as [He Hrest]. rewrite run_cons, IH by exact Hrest.
  unfold step. destruct (uncaught s) eqn:Hu; [exact Hu |].
  destruct e; try exact Hu; [| congruence].
  now destruct (on_close_fields code (set_os (reap (pid s) (os s)) s))
    as (_ & _ & -> & _).
Qed.

Lemma effective_seconds_spec (t : option number) :
  timeout_seconds t = Int (effective_seconds t) ∧ effective_seconds t ≠ 0.
Proof.
  destruct t as [[z|]|]; unfold timeout_seconds, logical_or; simpl;
    try (split; [reflexivity | lia]).
  destruct (Z.eqb_spec z 0); simpl; split; auto; lia.
Qed.

Lemma run_disarmed_uncaught (events : list Event) (s : Exec) :
  (∀ delay, timer s ≠ Armed delay) → uncaught s = None →
  uncaught (run s events) = None.
Proof.
  revert s. induction events as [|e rest IH]; intros s Hoff Hu; [exact Hu |].
  rewrite run_cons. unfold step. rewrite Hu.
  destruct e as [chunk|err|code|].
  - apply IH; [exact Hoff | exact Hu].
  - apply IH; [exact Hoff | exact Hu].
  - apply IH.
    + intros delay. rewrite on_close_timer. simpl. destruct (timer s); discriminate.
    + now destruct (on_close_fields code (set_os (reap (pid s) (os s)) s))
        as (_ & _ & -> & _).
  - destruct (timer s) as [delay| |] eqn:Ht.
    + destruct (Hoff delay eq_refl).
    + apply IH; [congruence | exact Hu].
    + apply IH; [congruence | exact Hu].
Qed.

(** X1: the promise [exec] returns is a function of the events alone.  It
    is pending as long as only output and error events arrive; the first
    close or timer expiry decides it for good: code 0 fulfils with the
    chunks received until then, appended in order, any other code rejects
    with that code's message, the expiry rejects with the timeout message.
    Whatever comes later, further output included, changes nothing. *)
Theorem exec_promise_is_decided_by_first_close_or_expiry
        (cmd : string) (arguments : list string) (t : option number)
        (child : Z) (o : Os) (events : list Event) :
  promise (run (exec cmd arguments t child o) events)
  = outcome (timeout_seconds t) [] events.
Proof.
  exact (run_outcome events (exec cmd arguments t child o) (timer_delay t)
           eq_refl eq_refl eq_refl).
Qed.

(** X2: output is mirrored faithfully.  In every state a run reaches, the
    lines written with [console.log] are exactly the buffer; and as long as
    no exception has left a callback, the console holds one line per output
    or error event, in arrival order, and nothing else; neither a close nor
    a timer expiry ever writes to it. *)
Theorem console_mirrors_output
        (cmd : string) (arguments : list string) (t : option number)
        (child : Z) (o : Os) (events : list Event) :
  let s := run (exec cmd arguments t child o) events in
  outs (console s) = buffer s
  ∧ (uncaught s = None → console s = mirror events ∧ buffer s = chunks events).
Proof.
  intros s. split.
  - apply run_outs. reflexivity.
  - intros Hlive. exact (run_console events _ Hlive).
Qed.

Lemma console_mirrors_output_witness :
  uncaught (run echo [Data "a"; ProcError "e"; Data "b"; Close (Code 0)]) = None
  ∧ console (run echo [Data "a"; ProcError "e"; Data "b"; Close (Code 0)])
    = [Out "a"; Err "e"; Out "b"].
Proof.
  split; [reflexivity |].
  apply (console_mirrors_output "echo" [] None 101 server
           [Data "a"; ProcError "e"; Data "b"; Close (Code 0)]).
  reflexivity.
Defined.

(** X3: the only exception that ever leaves a callback of [exec] is the
    [ReferenceError] of the timer callback, and when it does the promise
    has already been rejected with the timeout message.  A run without a
    timer expiry, and a run in which the child closes before the timer
    expires, never raise. *)
Theorem only_the_timer_callback_throws
        (cmd : string) (arguments : list string) (t : option number)
        (child : Z) (o : Os) (events : list Event) :
  let s := run (exec cmd arguments t child o) events in
  (∀ exc, uncaught s = Some exc →
     exc = ReferenceError "cmd is not defined"
     ∧ promise s = Rejected (Error (timeout_message (timeout_seconds t)))
     ∧ timer s = Fired)
  ∧ (Forall (λ e, e ≠ TimerExpired) events → uncaught s = None)
  ∧ (∀ quiet code rest,
       events = quiet ++ Close code :: rest →
       forallb is_quiet quiet = true →
       uncaught s = None).
Proof.
  intros s. split; [| split].
  - apply (run_reachable (timeout_seconds t) events).
    apply exec_reachable.
  - intros H. subst s. now rewrite run_without_expiry.
  - intros quiet code rest -> Hq. subst s.
    destruct (exec_then_quiet cmd arguments t child o quiet Hq)
      as (_ & Ht & Hu & _).
    rewrite run_app, run_cons. apply run_disarmed_uncaught.
    + intros delay. unfold step. rewrite Hu, on_close_timer. simpl.
      now rewrite Ht.
    + unfold step. rewrite Hu.
      now destruct (on_close_fields code
                      (set_os (reap (pid (run (exec cmd arguments t child o) quiet))
                                    (os (run (exec cmd arguments t child o) quiet)))
                              (run (exec cmd arguments t child o) quiet)))
        as (_ & _ & -> & _).
Qed.

Lemma only_the_timer_callback_throws_witness :
  uncaught (run sleeper [Data "x"; TimerExpired; Close Null])
  = Some (ReferenceError "cmd is not defined")
  ∧ promise (run sleeper [Data "x"; TimerExpired; Close Null])
    = Rejected (Error "Process timed out after 1 seconds.")
  ∧ uncaught (run sleeper [Data "x"; Close Null; TimerExpired]) = None.
Proof.
  split; [reflexivity |]. split.
  - pose proof (only_the_timer_callback_throws "sleep" ["100"] (Some (Int 1))
                  101 server [Data "x"; TimerExpired; Close Null])
      as (Hcrash & _).
    exact (proj1 (proj2 (Hcrash _ eq_refl))).
  - pose proof (only_the_timer_callback_throws "sleep" ["100"] (Some (Int 1))
                  101 server [Data "x"; Close Null; TimerExpired])
      as (_ & _ & Hclosed).
    exact (Hclosed [Data "x"] Null [TimerExpired] eq_refl eq_refl).
Defined.

(** X4: whenever the process id of the child names no process group (as
    for every id the system hands out) and the timer expires before the
    child closes, the kill throws, the process table is left as [spawn]
    made it, with the child alive in the group of the server, the promise
    is rejected with the timeout message, the console shows no line about
    the failed kill, and the [ReferenceError] ends the server: no later
    event has any effect. *)
Theorem expiry_leaves_child_running_and_ends_server
        (cmd : string) (arguments : list string) (t : option number)
        (child : Z) (o : Os) (quiet later : list Event) :
  0 < child →
  group_members child (procs o) = ∅ →
  default (self o) (pgid o (self o)) ≠ child →
  forallb is_quiet quiet = true →
  let s := run (exec cmd arguments t child o) (quiet ++ [TimerExpired]) in
  uncaught s = Some (ReferenceError "cmd is not defined")
  ∧ promise s = Rejected (Error (timeout_message (timeout_seconds t)))
  ∧ console s = mirror quiet
  ∧ procs (os s) = procs (spawn child default_options o)
  ∧ pgid (os s) child = Some (default (self o) (pgid o (self o)))
  ∧ run s later = s.
Proof.
  intros Hpos Hfresh Hgroup Hq s.
  destruct (exec_then_quiet cmd arguments t child o quiet Hq)
    as (Hp & Ht & Hu & _ & Ho & Hpid & Hsec).
  destruct (run_console quiet (exec cmd arguments t child o) Hu) as [Hc _].
  destruct (exec_group_kill_throws cmd arguments t child o Hpos Hfresh Hgroup)
    as [Hthrown Hprocs].
  change (snd (process_kill (- child) SIGKILL (spawn child default_options o))
          = Some (SystemError "ESRCH")) in Hthrown.
  change (procs (fst (process_kill (- child) SIGKILL
                        (spawn child default_options o)))
          = procs (spawn child default_options o)) in Hprocs.
  simpl in Hc.
  set (s1 := run (exec cmd arguments t child o) quiet) in *.
  assert (s = on_timeout (set_timer Fired s1)) as Hs.
  { subst s. rewrite run_app. fold s1. cbn [run fold_left]. unfold step.
    now rewrite Hu, Ht. }
  destruct (process_kill (- child) SIGKILL (spawn child default_options o))
    as [o' thrown] eqn:Hkill.
  simpl in Hthrown, Hprocs. subst thrown.
  assert (process_kill (- pid (set_timer Fired s1)) SIGKILL
            (os (set_timer Fired s1))
          = (o', Some (SystemError "ESRCH"))) as Hkill'.
  { simpl. now rewrite Hpid, Ho. }
  destruct (on_timeout_kill_throws _ _ _ Hkill') as [Hcons Hunc].
  assert (procs (os s) = procs (spawn child default_options o)) as Hsame.
  { rewrite Hs. unfold on_timeout. rewrite Hkill'. simpl. exact Hprocs. }
  split; [now rewrite Hs |].
  split; [rewrite Hs, on_timeout_promise; simpl; now rewrite Hp, Hsec |].
  split; [rewrite Hs, Hcons; exact Hc |].
  split; [exact Hsame |].
  split; [unfold pgid; rewrite Hsame; apply lookup_insert_eq |].
  apply (run_crashed later s (ReferenceError "cmd is not defined")).
  now rewrite Hs.
Qed.

Lemma expiry_leaves_child_running_and_ends_server_witness :
  0 < 101
  ∧ group_members 101 (procs server) = ∅
  ∧ default (self server) (pgid server (self server)) ≠ 101
  ∧ forallb is_quiet [Data "zzz"] = true
  ∧ pgid (os (run sleeper [Data "zzz"; TimerExpired])) 101 = Some 100
  ∧ run (run sleeper [Data "zzz"; TimerExpired]) [Close Null; Data "late"]
    = run sleeper [Data "zzz"; TimerExpired].
Proof.
  assert (group_members 101 (procs server) = ∅) as Hfresh
    by (vm_compute; reflexivity).
  assert (default (self server) (pgid server (self server)) ≠ 101) as Hgroup
    by (vm_compute; discriminate).
  split; [lia |]. split; [exact Hfresh |]. split; [exact Hgroup |].
  split; [reflexivity |].
  pose proof (expiry_leaves_child_running_and_ends_server
                "sleep" ["100"] (Some (Int 1)) 101 server
                [Data "zzz"] [Close Null; Data "late"]
                ltac:(lia) Hfresh Hgroup eq_refl)
    as (_ & _ & _ & _ & Hgrp & Hdead).
  split; [exact Hgrp | exact Hdead].
Defined.

(** X5: for a timeout that is left out, [NaN] or an integer from 0 to
    2147483, the seconds are a positive integer (60 for zero and [NaN],
    60000 when the option is left out, the number itself otherwise), the
    timer is armed with exactly a thousand times as many milliseconds,
    which [setTimeout] honours, and the message of a timeout states that
    very number of seconds. *)
Theorem timeout_message_states_the_armed_delay
        (cmd : string) (arguments : list string) (t : option number)
        (child : Z) (o : Os) (quiet : list Event) :
  in_timer_range t = true →
  forallb is_quiet quiet = true →
  1 ≤ effective_seconds t * 1000 ≤ 2147483647
  ∧ timer (exec cmd arguments t child o)
    = Armed (Int (effective_seconds t * 1000))
  ∧ promise (run (exec cmd arguments t child o) (quiet ++ [TimerExpired]))
    = Rejected (Error ("Process timed out after "
                       +:+ pretty (effective_seconds t) +:+ " seconds.")).
Proof.
  intros Hrange Hq. destruct (effective_seconds_spec t) as [Hsec Hne].
  split; [| split].
  - destruct t as [[z|]|]; simpl in *; try lia.
    apply andb_prop in Hrange as [Hlo Hhi].
    apply Z.leb_le in Hlo, Hhi. destruct (Z.eqb_spec z 0); lia.
  - unfold exec, timer_delay. simpl. now rewrite Hsec.
  - destruct (timeout_rejects_with_seconds cmd arguments t child o quiet Hq)
      as (Hp & _). simpl in Hp. rewrite Hp, Hsec. reflexivity.
Qed.

Lemma timeout_message_states_the_armed_delay_witness :
  in_timer_range (Some (Int 90)) = true
  ∧ forallb is_quiet [ProcError "boom"] = true
  ∧ timer (exec "sleep" ["100"] (Some (Int 90)) 101 server)
    = Armed (Int 90000)
  ∧ promise (run (exec "sleep" ["100"] (Some (Int 90)) 101 server)
               [ProcError "boom"; TimerExpired])
    = Rejected (Error "Process timed out after 90 seconds.").
Proof.
  split; [reflexivity |]. split; [reflexivity |].
  pose proof (timeout_message_states_the_armed_delay
                "sleep" ["100"] (Some (Int 90)) 101 server
                [ProcError "boom"] eq_refl eq_refl) as (_ & Hdelay & Hmessage).
  split; [exact Hdelay | exact Hmessage].
Defined.

Lemma on_timeout_pid (s : Exec) : pid (on_timeout s) = pid s.
Proof.
  unfold on_timeout. destruct (process_kill _ _ _) as [o [exc|]]; reflexivity.
Qed.

Lemma run_kills (events : list Event) (s : Exec) (delay : number) :
  timer s = Armed delay → uncaught s = None →
  kills (os (run s events))
  = kills (os s) ++ (if expired_first events then [(- pid s, SIGKILL)] else []).
Proof.
  revert s. induction events as [|e rest IH]; intros s Ht Hu.
  - simpl. now rewrite app_nil_r.
  - rewrite run_cons. destruct e as [chunk|err|code|].
    + rewrite IH; unfold step; rewrite Hu; auto.
    + rewrite IH; unfold step; rewrite Hu; auto.
    + rewrite run_disarmed.
      * unfold step. rewrite Hu. unfold on_close.
        destruct (is_zero code); simpl; now rewrite app_nil_r.
      * intros d. unfold step. rewrite Hu, on_close_timer. simpl.
        now rewrite Ht.
    + rewrite run_disarmed.
      * unfold step. rewrite Hu, Ht. now rewrite on_timeout_kills.
      * intros d. unfold step. rewrite Hu, Ht, on_timeout_timer. discriminate.
Qed.

(** X14: [exec] signals at most once, and only the group named by its
    own child: after any run the calls of [process.kill] are those made
    before, followed by the one [SIGKILL] at the negated process id of the
    child if the timer expired before the child closed, and by nothing
    otherwise. *)
Theorem exec_kills_at_most_once
        (cmd : string) (arguments : list string) (t : option number)
        (child : Z) (o : Os) (events : list Event) :
  kills (os (run (exec cmd arguments t child o) events))
  = kills o ++ (if expired_first events then [(- child, SIGKILL)] else []).
Proof.
  exact (run_kills events (exec cmd arguments t child o) (timer_delay t)
           eq_refl eq_refl).
Qed.

End RunFacts.

(** ** More about the registry *)

Module RegistryMore.
Import Js Registry Scenario RegistryFacts.

(** X6: registrations never clash silently in favour of the old entry:
    after any calls of [launchJob], an identifier leads to the promise of
    the last call that drew it, an earlier promise under the same
    identifier being out of reach, and to what it led to before when no call
    drew it. *)
Theorem latest_registration_wins (calls : list (string * Ref))
        (jobs : gmap string Ref) (jobId : string) :
  lookup (launchJobs calls jobs).2 jobId
  = match last (filter (λ call, call.1 = jobId) calls) with
    | Some call => Some call.2
    | None => lookup jobs jobId
    end.
Proof.
  revert jobs. induction calls as [|[id' promise] rest IH]; intros jobs.
  - reflexivity.
  - rewrite launchJobs_cons. cbn [snd]. rewrite IH.
    rewrite filter_cons. simpl. case_decide as Heq.
    + subst id'. rewrite last_cons.
      destruct (last (filter _ rest)); [reflexivity |].
      unfold lookup. simpl. apply lookup_insert_eq.
    + destruct (last (filter _ rest)); [reflexivity |].
      unfold lookup. now rewrite lookup_insert_ne.
Qed.

(** X7: the registry only grows: after any calls of [launchJob] the
    identifiers it knows are the ones it knew before together with the ones
    drawn; no entry is ever removed. *)
Theorem registry_only_grows (calls : list (string * Ref))
        (jobs : gmap string Ref) :
  dom (launchJobs calls jobs).2 = dom jobs ∪ list_to_set calls.*1.
Proof.
  revert jobs. induction calls as [|[id' promise] rest IH]; intros jobs.
  - simpl. now rewrite union_empty_r_L.
  - rewrite launchJobs_cons. cbn [snd]. rewrite IH, dom_insert_L.
    simpl. now rewrite (comm_L (∪) {[id']} (dom jobs)), <- (assoc_L (∪)).
Qed.

End RegistryMore.

(** ** Facts about links *)

Module UriFacts.
Import Stdlib.Strings.Ascii.
Import Uri Handlers.

Lemma hex_digits_unreserved (c : ascii) :
  is_unreserved (hex_digit (N_of_ascii c / 16)) = true
  ∧ is_unreserved (hex_digit (N_of_ascii c mod 16)) = true.
Proof.
  destruct c as [[] [] [] [] [] [] [] []]; vm_compute; split; reflexivity.
Qed.

Lemma byte_of_hex_digits (c : ascii) :
  byte_of_hex (hex_digit (N_of_ascii c / 16)) (hex_digit (N_of_ascii c mod 16))
  = c.
Proof. destruct c as [[] [] [] [] [] [] [] []]; vm_compute; reflexivity. Qed.

Lemma encodeURIComponent_safe (s : string) :
  forallb is_uri_safe (list_ascii_of_string (encodeURIComponent s)) = true.
Proof.
  induction s as [|c s IH]; [reflexivity |].
  cbn [encodeURIComponent]. destruct (is_unreserved c) eqn:Hc.
  - cbn [list_ascii_of_string forallb]. rewrite IH.
    unfold is_uri_safe. now rewrite Hc.
  - destruct (hex_digits_unreserved c) as [Hhi Hlo].
    cbn [list_ascii_of_string forallb]. rewrite IH.
    unfold is_uri_safe at 2 3. rewrite Hhi, Hlo. reflexivity.
Qed.

Lemma encodeURIComponent_injective (a b : string) :
  encodeURIComponent a = encodeURIComponent b → a = b.
Proof.
  revert b. induction a as [|c a IH]; intros [|d b] H.
  - reflexivity.
  - cbn [encodeURIComponent] in H. destruct (is_unreserved d); discriminate H.
  - cbn [encodeURIComponent] in H. destruct (is_unreserved c); discriminate H.
  - cbn [encodeURIComponent] in H.
    destruct (is_unreserved c) eqn:Hc, (is_unreserved d) eqn:Hd.
    + injection H as -> H. f_equal. now apply IH.
    + injection H as -> _. discriminate Hc.
    + injection H as <- _. discriminate Hd.
    + injection H as Hhi Hlo H.
      rewrite <- (byte_of_hex_digits c), <- (byte_of_hex_digits d), Hhi, Hlo.
      f_equal. now apply IH.
Qed.

Lemma encodeURIComponent_unreserved (s : string) :
  forallb is_unreserved (list_ascii_of_string s) = true →
  encodeURIComponent s = s.
Proof.
  induction s as [|c s IH]; [reflexivity |].
  cbn [list_ascii_of_string forallb encodeURIComponent].
  intros H. apply andb_prop in H as [Hc Hs]. now rewrite Hc, IH.
Qed.

(** X8: the link a handler redirects to is ["/link?fname="] followed only
    by letters, digits, [- _ . ! ~ * ' ( )] and percent signs, whatever the
    file name contains: no slash, question mark, ampersand, hash, equals
    sign, blank, quote, angle bracket or line break of the name gets into
    it. *)
Theorem link_is_uri_safe (fname : string) :
  ∃ query,
    link fname = "/link?fname=" +:+ query
    ∧ forallb is_uri_safe (list_ascii_of_string query) = true
    ∧ ∀ c, c ∈ [ "/"; "?"; "&"; "#"; "="; " "; "<"; ">";
                 ascii_of_nat 34; ascii_of_nat 10; ascii_of_nat 13 ]%char →
           ¬ In c (list_ascii_of_string query).
Proof.
  exists (encodeURIComponent fname).
  split; [reflexivity |]. split; [apply encodeURIComponent_safe |].
  intros c Hc Hin.
  pose proof (encodeURIComponent_safe fname) as Hsafe.
  rewrite forallb_forall in Hsafe. specialize (Hsafe c Hin).
  repeat (apply elem_of_cons in Hc as [-> | Hc]; [discriminate Hsafe |]).
  inversion Hc.
Qed.

(** X9: different file names get different links, so a link identifies
    the file it was made for. *)
Theorem link_identifies_file (a b : string) : link a = link b → a = b.
Proof.
  unfold link. intros H.
  apply (inj (String.append _)) in H.
  now apply encodeURIComponent_injective.
Qed.

Lemma link_identifies_file_witness :
  link "a b.pdf" = "/link?fname=a%20b.pdf"
  ∧ (link "a b.pdf" = link "a b.pdf" → "a b.pdf" = "a b.pdf").
Proof.
  split; [reflexivity |]. apply (link_identifies_file "a b.pdf" "a b.pdf").
Defined.

(** X10: a file name made of unreserved characters only appears in its
    link unchanged. *)
Theorem plain_name_is_linked_verbatim (fname : string) :
  forallb is_unreserved (list_ascii_of_string fname) = true →
  link fname = "/link?fname=" +:+ fname.
Proof.
  intros H. unfold link. now rewrite encodeURIComponent_unreserved.
Qed.

Lemma plain_name_is_linked_verbatim_witness :
  forallb is_unreserved
    (list_ascii_of_string "1b9d6bcd-bbfd-4b2d-9b5d-ab8dfbbd4bed.epub") = true
  ∧ link "1b9d6bcd-bbfd-4b2d-9b5d-ab8dfbbd4bed.epub"
    = "/link?fname=1b9d6bcd-bbfd-4b2d-9b5d-ab8dfbbd4bed.epub".
Proof.
  split; [reflexivity |].
  apply (plain_name_is_linked_verbatim
           "1b9d6bcd-bbfd-4b2d-9b5d-ab8dfbbd4bed.epub").
  reflexivity.
Defined.

End UriFacts.

(** ** Facts about the request handlers *)

Module HandlerFacts.
Import Js Platform Runner Registry Trace Uri Handlers Scenario.
Import RunnerFacts RunFacts UriFacts.

Lemma link_not_empty (fname : string) : link fname ≠ "".
Proof. unfold link. intros H. discriminate H. Qed.

Lemma link_truthy (fname : string) : truthy (Some (link fname)) = true.
Proof. reflexivity. Qed.




(** X12: [/api/ereader] starts a job exactly when the request has a body
    whose url parses.  Otherwise it answers with status 500 and the message
    of the exception and does nothing else: neither [exec] nor [launchJob]
    is called and the registry is left as it was.  When it starts a job it
    answers with the page that names the job and the registry holds the new
    promise under that identifier. *)
Theorem ereader_fails_without_side_effects
        (body : option EreaderForm) (basename jobId : string) (r : Ref)
        (child : Z) (o : Os) (jobs : gmap string Ref) :
  let l := api_ereader body basename jobId r child o jobs in
  (job l = None ↔ ∀ form url, body = Some form → parsed_url form ≠ inr url)
  ∧ (job l = None →
     registry l = jobs
     ∧ ∃ thrown,
         response l = Failed 500 thrown
         ∧ (body = None →
            thrown = "Cannot read properties of undefined (reading 'url')")
         ∧ (∀ form, body = Some form → parsed_url form = inl thrown))
  ∧ (∀ j, job l = Some j →
     registry l = <[jobId := r]> jobs
     ∧ promise_ref j = r
     ∧ ∃ html, response l = Launched html).
Proof.
  intros l. subst l. unfold api_ereader.
  destruct body as [form|]; [destruct (parsed_url form) as [thrown|url] eqn:Hurl |];
    simpl.
  - split; [| split].
    + split; [| reflexivity]. intros _ form' url [= <-]. congruence.
    + intros _. split; [reflexivity |]. exists thrown.
      split; [reflexivity |]. split; [discriminate |].
      intros form' [= <-]. exact Hurl.
    + intros j H. discriminate H.
  - split; [| split].
    + split; [intros H; discriminate H |].
      intros H. destruct (H form url eq_refl Hurl).
    + intros H. discriminate H.
    + intros j [= <-]. split; [reflexivity |]. split; [reflexivity |].
      eexists. reflexivity.
  - split; [| split].
    + split; [| reflexivity]. intros _ form url H. discriminate H.
    + intros _. split; [reflexivity |]. eexists.
      split; [reflexivity |]. split; [reflexivity |].
      intros form H. discriminate H.
    + intros j H. discriminate H.
Qed.

Lemma ereader_fails_without_side_effects_witness :
  job (api_ereader
         (Some {| parsed_url := inl "Invalid URL"; format := Some "pdf";
                  timeout := NaN |})
         "base" "job-z" 7%nat 101 server one_job) = None
  ∧ registry (api_ereader
         (Some {| parsed_url := inl "Invalid URL"; format := Some "pdf";
                  timeout := NaN |})
         "base" "job-z" 7%nat 101 server one_job) = one_job.
Proof.
  split; [reflexivity |].
  apply (ereader_fails_without_side_effects
           (Some {| parsed_url := inl "Invalid URL"; format := Some "pdf";
                    timeout := NaN |})
           "base" "job-z" 7%nat 101 server one_job).
  reflexivity.
Defined.





Lemma job_get_cases (jobs : gmap string Ref) (state_of : Ref → Settlement)
      (jobId : string) :
  job_get jobs state_of jobId
  = match lookup jobs jobId with
    | None =>
        Some (Send 200 {| id := jobId; status := "finished"; error := None |})
    | Some r =>
        match state_of r with
        | Pending => None
        | Fulfilled v =>
            if String.eqb v ""
            then Some (Send 200 {| id := jobId; status := "finished";
                                   error := None |})
            else Some (Redirect v)
        | Rejected exc =>
            Some (Send 500 {| id := jobId; status := "error";
                              error := Some (message exc) |})
        end
    end.
Proof.
  unfold job_get, await.
  destruct (lookup jobs jobId) as [r|]; [| reflexivity].
  destruct (state_of r) as [|v|exc]; try reflexivity.
  simpl. now destruct (String.eqb v "").
Qed.

Ltac break_down :=
  repeat match goal with
         | H : ∃ _, _ |- _ => destruct H
         | H : _ ∧ _ |- _ => destruct H
         | H : _ ∨ _ |- _ => destruct H
         end.

(** X15: what a poll is answered with.  It is left waiting exactly when
    the identifier is registered and its promise pending; it gets status
    500 with the message exactly when the promise is rejected; it is
    redirected exactly when the promise is fulfilled with a non-empty
    string; and it gets status 200 with ['finished'] exactly when the
    promise is fulfilled with the empty string or the identifier is not
    registered at all. *)
Theorem poll_answers (jobs : gmap string Ref) (state_of : Ref → Settlement)
        (jobId : string) :
  (job_get jobs state_of jobId = None
   ↔ ∃ r, lookup jobs jobId = Some r ∧ state_of r = Pending)
  ∧ (∀ body, job_get jobs state_of jobId = Some (Send 500 body)
     ↔ ∃ r exc, lookup jobs jobId = Some r ∧ state_of r = Rejected exc
                ∧ body = {| id := jobId; status := "error";
                            error := Some (message exc) |})
  ∧ (∀ location, job_get jobs state_of jobId = Some (Redirect location)
     ↔ ∃ r, lookup jobs jobId = Some r ∧ state_of r = Fulfilled location
            ∧ location ≠ "")
  ∧ (job_get jobs state_of jobId
     = Some (Send 200 {| id := jobId; status := "finished"; error := None |})
     ↔ lookup jobs jobId = None
       ∨ ∃ r, lookup jobs jobId = Some r ∧ state_of r = Fulfilled "").
Proof.
  rewrite job_get_cases.
  destruct (lookup jobs jobId) as [r|];
    [destruct (state_of r) as [|v|exc] eqn:Hr;
     [| destruct (String.eqb_spec v "") as [-> | Hv] |] |];
    repeat split; intros; break_down; try congruence;
    try (repeat eexists; (reflexivity || eassumption || congruence));
    try (left; reflexivity);
    try (right; eexists; split; [reflexivity | eassumption]).
Qed.

End HandlerFacts.
